(** * Factorization benchmark: trial division and Pollard's Rho

    A shallow embedding of the two factorizers of [factor_benchmark.py].
    Python integers are unbounded, so they are [Z]; Python's [%] takes the
    sign of the divisor, as [Z.modulo] does.  The [while] loop of trial
    division is defined by well-founded recursion; the [while] loop of
    Pollard's Rho has no syntactic bound and runs on fuel, with a proof that
    [n] iterations always suffice.  The process-wide random generator is an
    explicit state threaded through the calls.  The Numba-compiled copy of
    trial division runs on machine integers, under typing and overflow rules
    that the source does not state, and is left out. *)

From Equations Require Import Equations.
From Stdlib Require Import ZArith List Lia.
Import ListNotations.

Local Open Scope Z_scope.

(** ** Trial division *)

Module Trial.

(** The loop [while i * i <= n: if n % i == 0: return i; i += 2] followed by
    [return n].  Since [i <= i * i] for every integer, the loop guard gives
    [i <= n], so [n + 1 - i] is a positive quantity that each iteration
    lowers by two. *)
Equations? trial_loop (n i : Z) : Z by wf (Z.to_nat (n + 1 - i)) lt :=
  trial_loop n i with Z_le_dec (i * i) n => {
    | left _ with Z.eq_dec (n mod i) 0 => {
        | left _ := i;
        | right _ := trial_loop n (i + 2) };
    | right _ := n }.
Proof. nia. Qed.

Definition trial_division_python (n : Z) : Z :=
  if n mod 2 =? 0 then 2 else trial_loop n 3.

(** The same loop run for at most [fuel] tests of its condition. *)
Fixpoint trial_loop_steps (fuel : nat) (n i : Z) {struct fuel} : option Z :=
  match fuel with
  | O => None
  | S fuel' =>
      if i * i <=? n then
        (if n mod i =? 0 then Some i else trial_loop_steps fuel' n (i + 2))
      else Some n
  end.

Definition trial_division_steps (fuel : nat) (n : Z) : option Z :=
  if n mod 2 =? 0 then Some 2 else trial_loop_steps fuel n 3.

(** The odd candidates [3, 5, 7, ...] up to the square root of [n]. *)
Definition candidate (n i : Z) : Prop :=
  3 <= i /\ Z.odd i = true /\ i * i <= n.

End Trial.

(** ** Pollard's Rho *)

Module Rho.

(** The random generator: [tape] is the entropy the generator will hand out,
    [pos] the number of draws made so far.  Each call of [random.randint]
    reads one cell and moves on. *)
Record rng : Type := mkRng { tape : nat -> Z; pos : nat }.

Inductive exn : Type := ValueError.

(** What running a piece of the program on a generator state yields: a value
    and the new generator state, a raised exception, or no answer within the
    fuel given to the [while] loop. *)
Inductive outcome (A : Type) : Type :=
| Returned (a : A) (r : rng)
| Raised (e : exn)
| OutOfFuel.
Arguments Returned {A} a r.
Arguments Raised {A} e.
Arguments OutOfFuel {A}.

Definition M (A : Type) : Type := rng -> outcome A.

Definition ret {A} (a : A) : M A := fun r => Returned a r.

Definition bind {A B} (m : M A) (k : A -> M B) : M B :=
  fun r =>
    match m r with
    | Returned a r' => k a r'
    | Raised e => Raised e
    | OutOfFuel => OutOfFuel
    end.

Definition diverge {A} : M A := fun _ => OutOfFuel.

Notation "x <- m ;; k" := (bind m (fun x => k))
  (at level 61, m at next level, right associativity).

(** The number the generator hands out for the range [a..b], and the
    generator after one draw. *)
Definition draw (a b : Z) (r : rng) : Z := a + tape r (pos r) mod (b - a + 1).
Definition next (r : rng) : rng := mkRng (tape r) (S (pos r)).

(** [random.randint(a, b)]: an integer of [a..b], both ends included;
    [ValueError] on an empty range. *)
Definition randint (a b : Z) : M Z :=
  fun r => if b <? a then Raised ValueError else Returned (draw a b r) (next r).

(** Three-argument [pow(b, e, m)] for a non-negative exponent. *)
Definition pow_mod (b e m : Z) : Z := b ^ e mod m.

(** How the [while g == 1] loop is left: its condition became false, the
    [break], the [return g] inside it, or the fuel ran out. *)
Inductive loop_exit : Type :=
| LoopEnd
| LoopBreak
| LoopReturn (g : Z)
| LoopFuel.

Fixpoint rho_while (fuel : nat) (n c x y g : Z) {struct fuel} : loop_exit :=
  if g =? 1 then
    match fuel with
    | O => LoopFuel
    | S fuel' =>
        let x := (pow_mod x 2 n + c) mod n in
        let y := (pow_mod y 2 n + c) mod n in
        let y := (pow_mod y 2 n + c) mod n in
        let g := Z.gcd (Z.abs (x - y)) n in
        if g =? n then LoopBreak
        else if g >? 1 then LoopReturn g
        else rho_while fuel' n c x y g
    end
  else LoopEnd.

(** The body of [for _ in range(max_retries)] up to the end of the [while]. *)
Definition rho_attempt (fuel : nat) (n : Z) : M loop_exit :=
  x <- randint 2 (n - 1) ;;
  c <- randint 1 (n - 1) ;;
  ret (rho_while fuel n c x x 1).

Fixpoint rho_for (k : nat) (fuel : nat) (n : Z) {struct k} : M Z :=
  match k with
  | O => ret n
  | S k' =>
      e <- rho_attempt fuel n ;;
      match e with
      | LoopReturn g => ret g
      | LoopEnd | LoopBreak => rho_for k' fuel n
      | LoopFuel => diverge
      end
  end.

Definition max_retries : nat := 5.

Definition pollards_rho (fuel : nat) (n : Z) : M Z :=
  if n mod 2 =? 0 then ret 2
  else if n mod 3 =? 0 then ret 3
  else rho_for max_retries fuel n.

(** An attempt that ended without [return g]. *)
Definition failed (e : loop_exit) : Prop := e = LoopEnd \/ e = LoopBreak.

(** [attempts_run fuel n r es r']: running the attempts one after the other
    from generator state [r] gives the exits [es], in order, and leaves the
    generator in [r']. *)
Inductive attempts_run (fuel : nat) (n : Z) : rng -> list loop_exit -> rng -> Prop :=
| run_nil r : attempts_run fuel n r [] r
| run_cons r e r1 es r2 :
    rho_attempt fuel n r = Returned e r1 ->
    attempts_run fuel n r1 es r2 ->
    attempts_run fuel n r (e :: es) r2.

(** The tortoise after [k] rounds, and the hare. *)
Definition rho_f (n c t : Z) : Z := (pow_mod t 2 n + c) mod n.
Definition tortoise (n c x0 : Z) (k : nat) : Z := Nat.iter k (rho_f n c) x0.
Definition hare (n c x0 : Z) (k : nat) : Z :=
  Nat.iter k (fun t => rho_f n c (rho_f n c t)) x0.

End Rho.

(** ** The state machine of the design document *)

Module Machine.

Record RhoState : Type := mkRho { rs_x : Z; rs_y : Z; rs_c : Z; rs_g : Z }.

Definition RetryBudget : nat := 5.

(** The phases; [INIT], [ITERATING] and [RETRY] carry the number of attempts
    begun so far. *)
Inductive phase : Type :=
| INIT (used : nat)
| ITERATING (used : nat) (s : RhoState)
| RETRY (used : nat)
| FACTOR_FOUND (g : Z)
| EXHAUSTED.

(** One round of ITERATING: the tortoise one step, the hare two, by
    [t := (t^2 + c) mod n], then the gcd of their distance with [n]. *)
Definition recur (n c t : Z) : Z := (t ^ 2 + c) mod n.

Definition advance (n : Z) (s : RhoState) : RhoState :=
  let x := recur n (rs_c s) (rs_x s) in
  let y := recur n (rs_c s) (recur n (rs_c s) (rs_y s)) in
  mkRho x y (rs_c s) (Z.gcd (Z.abs (x - y)) n).

Inductive step (n : Z) : phase -> phase -> Prop :=
| step_init used x0 c :
    2 <= x0 <= n - 1 -> 1 <= c <= n - 1 ->
    step n (INIT used) (ITERATING (S used) (mkRho x0 x0 c 1))
| step_iterate used s :
    rs_g s = 1 ->
    step n (ITERATING used s) (ITERATING used (advance n s))
| step_collapse used s :
    rs_g s <> 1 -> rs_g s = n ->
    step n (ITERATING used s) (RETRY used)
| step_found used s :
    rs_g s <> 1 -> 1 < rs_g s < n ->
    step n (ITERATING used s) (FACTOR_FOUND (rs_g s))
| step_retry used :
    (used < RetryBudget)%nat ->
    step n (RETRY used) (INIT used)
| step_exhausted used :
    ~ (used < RetryBudget)%nat ->
    step n (RETRY used) EXHAUSTED.

Inductive steps (n : Z) : phase -> phase -> Prop :=
| steps_refl p : steps n p p
| steps_cons p q s : step n p q -> steps n q s -> steps n p s.

(** What the machine hands back at the boundary: the factor, or the legacy
    sentinel [n] for [NoFactor]. *)
Definition output (n : Z) (p : phase) : option Z :=
  match p with
  | FACTOR_FOUND g => Some g
  | EXHAUSTED => Some n
  | _ => None
  end.

End Machine.

Import Rho.

(** A generator that hands out the same number forever, and one that counts. *)
Definition const_rng (v : Z) : rng := mkRng (fun _ => v) 0.
Definition count_rng (a b : Z) : rng := mkRng (fun i => a + b * Z.of_nat i) 0.

(** A generator that hands out [x = 2] and [c = n - 2] for every attempt. *)
Definition unlucky_rng (n : Z) : rng :=
  mkRng (fun i => if Nat.even i then 0 else n - 3) 0.

(** Where the machine stands when the loop of the code is left in a given
    way. *)
Definition after_loop (used : nat) (e : loop_exit) : Machine.phase :=
  match e with
  | LoopReturn g => Machine.FACTOR_FOUND g
  | _ => Machine.RETRY used
  end.

(** A generator whose first attempt draws [x = 2], [c = n - 2] and whose
    later attempts draw [x = 2], [c = 1]. *)
Definition retry_once_rng (n : Z) : rng :=
  mkRng (fun i => if (i =? 1)%nat then n - 3 else 0) 0.

(** The phases in which the machine draws. *)
Definition drawing (p : Machine.phase) : bool :=
  match p with Machine.INIT _ => true | _ => false end.

(** The machine run on a generator: in INIT its [x0] and [c] are the two
    numbers the generator hands out next, [x0] first; the other steps leave
    the generator alone.  Every step is a step of the machine. *)
Inductive driven_step (n : Z) :
  Machine.phase * rng -> Machine.phase * rng -> Prop :=
| driven_draw used r x0 r1 c r2 :
    randint 2 (n - 1) r = Returned x0 r1 ->
    randint 1 (n - 1) r1 = Returned c r2 ->
    Machine.step n (Machine.INIT used)
                 (Machine.ITERATING (S used) (Machine.mkRho x0 x0 c 1)) ->
    driven_step n (Machine.INIT used, r)
                (Machine.ITERATING (S used) (Machine.mkRho x0 x0 c 1), r2)
| driven_move p q r :
    drawing p = false -> Machine.step n p q ->
    driven_step n (p, r) (q, r).

Inductive driven_steps (n : Z) :
  Machine.phase * rng -> Machine.phase * rng -> Prop :=
| driven_refl a : driven_steps n a a
| driven_cons a b c :
    driven_step n a b -> driven_steps n b c -> driven_steps n a c.

(** The returned value alone. *)
Definition value {A} (o : outcome A) : option A :=
  match o with Returned a _ => Some a | _ => None end.

Example trial_15 : Trial.trial_division_python 15 = 3.
Proof. reflexivity. Qed.
Example trial_91 : Trial.trial_division_python 91 = 7.
Proof. reflexivity. Qed.
Example trial_997 : Trial.trial_division_python 997 = 997.
Proof. vm_compute. reflexivity. Qed.

Example rho_8051 :
  value (pollards_rho (Z.to_nat 8051) 8051 (count_rng 0 1)) = Some 83.
Proof. vm_compute. reflexivity. Qed.

(** ** Trial division: what the loop computes *)

Section TrialDivision.

Import Trial.

(** The loop satisfies the equation of the [while] statement. *)
Lemma trial_loop_unfold (n i : Z) :
  trial_loop n i =
  if i * i <=? n then (if n mod i =? 0 then i else trial_loop n (i + 2))
  else n.
Proof.
  funelim (trial_loop n i).
  - destruct (Z.leb_spec (i * i) n); [lia | reflexivity].
  - destruct (Z.leb_spec (i * i) n); [| lia].
    destruct (Z.eqb_spec (n mod i) 0); [reflexivity | lia].
  - destruct (Z.leb_spec (i * i) n); [| lia].
    destruct (Z.eqb_spec (n mod i) 0); [lia | reflexivity].
Qed.

(** The loop leaves within [n + 1 - i] iterations, with the value above. *)
Lemma trial_loop_steps_enough (fuel : nat) :
  forall n i, (Z.to_nat (n + 1 - i) < fuel)%nat ->
              trial_loop_steps fuel n i = Some (trial_loop n i).
Proof.
  induction fuel as [| fuel IH]; intros n i Hfuel; [lia |].
  rewrite trial_loop_unfold. cbn [trial_loop_steps].
  destruct (Z.leb_spec (i * i) n) as [Hsq | Hsq]; [| reflexivity].
  destruct (n mod i =? 0); [reflexivity |].
  apply IH. nia.
Qed.

Lemma odd_next (i j : Z) :
  Z.odd i = true -> Z.odd j = true -> i <= j -> j = i \/ i + 2 <= j.
Proof.
  intros Hi Hj Hle.
  apply Z.odd_spec in Hi. apply Z.odd_spec in Hj.
  destruct Hi as [a ->]. destruct Hj as [b ->]. lia.
Qed.

(** From an odd start [i], the loop stops at the first odd [d >= i] with
    [d * d <= n] that divides [n], or it runs past the square root and gives
    [n]. *)
Lemma trial_loop_spec (n i : Z) :
  0 <= i -> Z.odd i = true ->
  (i <= trial_loop n i /\ Z.odd (trial_loop n i) = true /\
   trial_loop n i * trial_loop n i <= n /\ n mod trial_loop n i = 0 /\
   forall j, i <= j < trial_loop n i -> Z.odd j = true -> n mod j <> 0)
  \/
  (trial_loop n i = n /\
   forall j, i <= j -> Z.odd j = true -> j * j <= n -> n mod j <> 0).
Proof.
  funelim (trial_loop n i); intros Hpos Hodd.
  - right. split; [reflexivity |]. intros j Hj _ Hsq. nia.
  - left. repeat split; try lia; try assumption. 
  - assert (Hodd2 : Z.odd (i + 2) = true)
      by (rewrite Z.odd_add, Hodd; reflexivity).
    destruct (H ltac:(lia) Hodd2) as [(Hle & Hd & Hsq & Hdiv & Hmin) | (Hn & Hnone)].
    + left. repeat split; try lia; try assumption.
      intros j Hj Hjodd.
      destruct (odd_next i j Hodd Hjodd ltac:(lia)) as [-> | Hge]; [assumption |].
      apply Hmin; [lia | assumption].
    + right. split; [assumption |].
      intros j Hj Hjodd Hsq.
      destruct (odd_next i j Hodd Hjodd Hj) as [-> | Hge]; [assumption |].
      apply Hnone; assumption.
Qed.

Lemma not_even_odd (n : Z) : (n mod 2 =? 0) = false -> Z.odd n = true.
Proof.
  intros H. apply Z.eqb_neq in H. rewrite Zmod_odd in H.
  destruct (Z.odd n); [reflexivity | lia].
Qed.

(** The value returned always divides the argument. *)
Lemma trial_division_divides (n : Z) : n mod trial_division_python n = 0.
Proof.
  unfold trial_division_python.
  destruct (n mod 2 =? 0) eqn:E.
  - apply Z.eqb_eq in E. assumption.
  - destruct (trial_loop_spec n 3 ltac:(lia) eq_refl)
      as [(_ & _ & _ & Hdiv & _) | (Hn & _)]; [assumption |].
    rewrite Hn. apply Z_mod_same_full.
Qed.

(** A value other than the argument is a proper divisor. *)
Lemma trial_division_proper (n : Z) :
  2 <= n -> trial_division_python n <> n ->
  1 < trial_division_python n < n.
Proof.
  unfold trial_division_python. intros Hn Hne.
  destruct (n mod 2 =? 0) eqn:E.
  - lia.
  - destruct (trial_loop_spec n 3 ltac:(lia) eq_refl)
      as [(Hle & _ & Hsq & _ & _) | (Heq & _)]; [nia | contradiction].
Qed.

Lemma prime_no_proper_divisor (p d : Z) :
  Z.prime p -> 1 < d < p -> p mod d <> 0.
Proof.
  intros [_ Hp] Hd Hmod.
  apply (Hp d Hd). apply Z.mod_divide; lia.
Qed.

Lemma trial_division_prime (p : Z) : Z.prime p -> trial_division_python p = p.
Proof.
  intros Hp. pose proof (Z.prime_ge_2 p Hp) as Hge.
  unfold trial_division_python.
  destruct (p mod 2 =? 0) eqn:E.
  - apply Z.eqb_eq in E.
    destruct (Z.eq_dec p 2) as [-> | Hne]; [reflexivity |].
    exfalso. apply (prime_no_proper_divisor p 2 Hp); lia.
  - destruct (trial_loop_spec p 3 ltac:(lia) eq_refl)
      as [(Hle & _ & Hsq & Hdiv & _) | (Heq & _)]; [| assumption].
    exfalso. apply (prime_no_proper_divisor p _ Hp) in Hdiv; [assumption | nia].
Qed.

End TrialDivision.

(** ** Floyd's cycle detection always meets *)

Section Floyd.

Variables n c : Z.
Hypothesis n_pos : 0 < n.

Lemma rho_f_range (t : Z) : 0 <= rho_f n c t < n.
Proof. unfold rho_f. apply Z.mod_pos_bound. exact n_pos. Qed.

Lemma tortoise_shift (x0 : Z) (k : nat) :
  tortoise n c x0 (S k) = tortoise n c (rho_f n c x0) k.
Proof. unfold tortoise. apply Nat.iter_succ_r. Qed.

Lemma hare_shift (x0 : Z) (k : nat) :
  hare n c x0 (S k) = hare n c (rho_f n c (rho_f n c x0)) k.
Proof.
  unfold hare.
  exact (Nat.iter_succ_r k Z (fun t => rho_f n c (rho_f n c t)) x0).
Qed.

Lemma tortoise_add (x0 : Z) (a b : nat) :
  tortoise n c x0 (a + b) = tortoise n c (tortoise n c x0 b) a.
Proof. unfold tortoise. apply Nat.iter_add. Qed.

(** The hare is the tortoise at twice the index. *)
Lemma hare_tortoise (x0 : Z) (k : nat) :
  hare n c x0 k = tortoise n c x0 (2 * k).
Proof.
  induction k as [| k IH]; [reflexivity |].
  replace (2 * S k)%nat with (S (S (2 * k))) by lia.
  unfold hare, tortoise in *.
  rewrite !Nat.iter_succ, IH. reflexivity.
Qed.

Lemma repeat_or_nodup (l : list Z) :
  NoDup l \/
  exists i j, (i < j < length l)%nat /\ nth i l 0 = nth j l 0.
Proof.
  induction l as [| a l IH]; [left; constructor |].
  destruct (in_dec Z.eq_dec a l) as [Hin | Hnin].
  - right. apply (In_nth _ _ 0) in Hin. destruct Hin as (j & Hj & Hnth).
    exists 0%nat, (S j). simpl. split; [lia | symmetry; exact Hnth].
  - destruct IH as [ND | (i & j & Hij & E)].
    + left. constructor; assumption.
    + right. exists (S i), (S j). simpl. split; [lia | exact E].
Qed.

(** [m + 1] values among [m] residues: two of them agree. *)
Lemma pigeonhole_seq (s : nat -> Z) (m : nat) :
  (forall i, (i <= m)%nat -> 0 <= s i < Z.of_nat m) ->
  exists i j, (i < j <= m)%nat /\ s i = s j.
Proof.
  intros Hr.
  destruct (repeat_or_nodup (map s (seq 0 (S m)))) as [ND | (i & j & Hij & E)].
  - exfalso.
    assert (Hincl : incl (map s (seq 0 (S m))) (map Z.of_nat (seq 0 m))).
    { intros v Hv. apply in_map_iff in Hv. destruct Hv as (i & <- & Hi).
      apply in_seq in Hi. specialize (Hr i ltac:(lia)).
      apply in_map_iff. exists (Z.to_nat (s i)). split.
      - apply Z2Nat.id. lia.
      - apply in_seq. lia. }
    pose proof (NoDup_incl_length ND Hincl) as Hlen.
    rewrite !length_map, !length_seq in Hlen. lia.
  - rewrite length_map, length_seq in Hij.
    exists i, j. split; [lia |].
    rewrite (nth_indep _ 0 (s 0%nat)), (nth_indep _ 0 (s 0%nat) (n := j)) in E
      by (rewrite length_map, length_seq; lia).
    rewrite !map_nth, !seq_nth in E by lia. exact E.
Qed.

(** Once two indices agree, the sequence repeats with their distance. *)
Lemma tortoise_period (x0 : Z) (a b : nat) :
  (a <= b)%nat -> tortoise n c x0 a = tortoise n c x0 b ->
  forall q u, (a <= u)%nat ->
    tortoise n c x0 (u + q * (b - a)) = tortoise n c x0 u.
Proof.
  intros Hab E.
  assert (Hone : forall u, (a <= u)%nat ->
            tortoise n c x0 (u + (b - a)) = tortoise n c x0 u).
  { intros u Hu.
    replace (u + (b - a))%nat with ((u - a) + b)%nat by lia.
    rewrite tortoise_add, <- E, <- tortoise_add.
    f_equal. lia. }
  induction q as [| q IH]; intros u Hu.
  - f_equal. lia.
  - replace (u + S q * (b - a))%nat with ((u + q * (b - a)) + (b - a))%nat by lia.
    rewrite Hone by lia. apply IH. exact Hu.
Qed.

(** Within [n] rounds the tortoise and the hare stand on the same residue. *)
Lemma floyd_meet (x0 : Z) :
  exists k, (1 <= k <= Z.to_nat n)%nat /\
            tortoise n c x0 k = hare n c x0 k.
Proof.
  destruct (pigeonhole_seq (fun i => tortoise n c x0 (S i)) (Z.to_nat n))
    as (i & j & Hij & E).
  { intros i _. rewrite Z2Nat.id by lia.
    unfold tortoise. rewrite Nat.iter_succ. apply rho_f_range. }
  set (a := S i) in *. set (b := S j) in *.
  set (l := (b - a)%nat).
  assert (Hl : (0 < l)%nat) by (unfold l, a, b; lia).
  set (q := ((a + l - 1) / l)%nat).
  pose proof (Nat.div_mod_eq (a + l - 1) l) as Hdiv.
  pose proof (Nat.mod_upper_bound (a + l - 1) l ltac:(lia)) as Hmod.
  fold q in Hdiv.
  assert (Hk : (a <= q * l <= a + l - 1)%nat) by lia.
  exists (q * l)%nat. split; [unfold l, a, b in *; lia |].
  rewrite hare_tortoise.
  replace (2 * (q * l))%nat with (q * l + q * (b - a))%nat by (unfold l; lia).
  symmetry. apply tortoise_period; [unfold a, b; lia | exact E | lia].
Qed.

(** *** The [while] loop *)

Lemma rho_while_unfold (fuel : nat) (x y g0 : Z) :
  rho_while fuel n c x y g0 =
  if g0 =? 1 then
    match fuel with
    | O => LoopFuel
    | S fuel' =>
        let x' := rho_f n c x in
        let y' := rho_f n c (rho_f n c y) in
        let g := Z.gcd (Z.abs (x' - y')) n in
        if g =? n then LoopBreak
        else if g >? 1 then LoopReturn g
        else rho_while fuel' n c x' y' g
    end
  else LoopEnd.
Proof. destruct fuel; reflexivity. Qed.

Lemma gcd_n_bounds (a : Z) : 1 <= Z.gcd a n <= n /\ (Z.gcd a n | n).
Proof.
  pose proof (Z.gcd_nonneg a n) as Hnn.
  pose proof (Z.gcd_divide_r a n) as Hdiv.
  assert (Z.gcd a n <> 0).
  { intros H0. apply Z.gcd_eq_0_r in H0. lia. }
  pose proof (Z.divide_pos_le _ _ n_pos Hdiv). split; [lia | exact Hdiv].
Qed.

(** The three ways out of one round, and the one way to stay in. *)
Lemma rho_round (x y : Z) :
  let g := Z.gcd (Z.abs (rho_f n c x - rho_f n c (rho_f n c y))) n in
  forall fuel,
    (g = n /\ rho_while (S fuel) n c x y 1 = LoopBreak) \/
    (1 < g < n /\ rho_while (S fuel) n c x y 1 = LoopReturn g) \/
    (g = 1 /\ 1 < n /\
     rho_while (S fuel) n c x y 1 =
     rho_while fuel n c (rho_f n c x) (rho_f n c (rho_f n c y)) 1).
Proof.
  intros g fuel. rewrite (rho_while_unfold (S fuel)). cbv zeta. fold g.
  change (1 =? 1) with true. cbv iota.
  destruct (gcd_n_bounds (Z.abs (rho_f n c x - rho_f n c (rho_f n c y))))
    as [Hb _]. fold g in Hb.
  destruct (Z.eqb_spec g n) as [Hgn | Hgn]; [left; split; auto |].
  rewrite Z.gtb_ltb. destruct (Z.ltb_spec 1 g) as [Hg1 | Hg1].
  - right; left. split; [lia | reflexivity].
  - right; right. assert (Hg : g = 1) by lia. rewrite Hg.
    split; [reflexivity |]. split; [lia | reflexivity].
Qed.

(** A [return g] inside the loop hands back a proper divisor. *)
Lemma rho_while_return (fuel : nat) :
  forall x y g, rho_while fuel n c x y 1 = LoopReturn g ->
                1 < g < n /\ (g | n).
Proof.
  induction fuel as [| fuel IH]; intros x y g H; [discriminate H |].
  destruct (rho_round x y fuel) as [[_ E] | [[Hg E] | (_ & _ & E)]];
    rewrite E in H.
  - discriminate H.
  - injection H as <-. split; [exact Hg |]. apply gcd_n_bounds.
  - exact (IH _ _ _ H).
Qed.

(** The loop never ends through its condition: after a round, [g] is [n], a
    proper divisor, or [1]. *)
Lemma rho_while_not_end (fuel : nat) :
  forall x y, rho_while fuel n c x y 1 <> LoopEnd.
Proof.
  induction fuel as [| fuel IH]; intros x y; [discriminate |].
  destruct (rho_round x y fuel) as [[_ E] | [[_ E] | (_ & _ & E)]];
    rewrite E; [discriminate | discriminate | apply IH].
Qed.

(** Fuel that reaches a meeting point is enough. *)
Lemma rho_while_exits (fuel : nat) :
  forall x y,
    (exists k, (1 <= k <= fuel)%nat /\ tortoise n c x k = hare n c y k) ->
    rho_while fuel n c x y 1 <> LoopFuel.
Proof.
  induction fuel as [| fuel IH]; intros x y (k & Hk & E); [lia |].
  destruct (rho_round x y fuel) as [[_ R] | [[_ R] | (Hg & Hn & R)]];
    rewrite R; try discriminate.
  apply IH. destruct k as [| k]; [lia |].
  rewrite tortoise_shift, hare_shift in E.
  destruct k as [| k].
  - exfalso. change (rho_f n c x = rho_f n c (rho_f n c y)) in E.
    rewrite E, Z.sub_diag in Hg. change (Z.abs 0) with 0 in Hg.
    rewrite Z.gcd_0_l, Z.abs_eq in Hg by lia. lia.
  - exists (S k). split; [lia | exact E].
Qed.

Lemma rho_while_enough_fuel (fuel : nat) (x0 : Z) :
  (Z.to_nat n <= fuel)%nat -> rho_while fuel n c x0 x0 1 <> LoopFuel.
Proof.
  intros Hfuel. apply rho_while_exits.
  destruct (floyd_meet x0) as (k & Hk & E).
  exists k. split; [lia | exact E].
Qed.

End Floyd.

(** ** One attempt, and the retry loop *)

Section Attempts.

Variable n : Z.
Hypothesis n_ge : 3 <= n.

Lemma draw_range (a b : Z) (r : rng) : a <= b -> a <= draw a b r <= b.
Proof.
  intros Hab. unfold draw.
  pose proof (Z.mod_pos_bound (tape r (pos r)) (b - a + 1) ltac:(lia)). lia.
Qed.

Lemma randint_eq (a b : Z) (r : rng) :
  a <= b -> randint a b r = Returned (draw a b r) (next r).
Proof.
  intros Hab. unfold randint.
  destruct (Z.ltb_spec b a); [lia | reflexivity].
Qed.

(** Every value of the range is handed out by some generator. *)
Lemma randint_onto (a b v : Z) (t : nat -> Z) (p : nat) :
  a <= v <= b -> t p = v - a -> draw a b (mkRng t p) = v.
Proof.
  intros Hv Ht. unfold draw. simpl. rewrite Ht, Z.mod_small by lia. lia.
Qed.

(** An attempt draws [x] then [c], and runs the loop from [x = y], [g = 1]. *)
Lemma rho_attempt_eq (fuel : nat) (r : rng) :
  rho_attempt fuel n r =
  Returned (rho_while fuel n (draw 1 (n - 1) (next r))
                      (draw 2 (n - 1) r) (draw 2 (n - 1) r) 1)
           (next (next r)).
Proof.
  unfold rho_attempt, bind, ret.
  rewrite (randint_eq 2 (n - 1) r) by lia.
  rewrite (randint_eq 1 (n - 1) (next r)) by lia.
  reflexivity.
Qed.

(** More fuel does not change an answer already reached. *)
Lemma rho_while_more_fuel (c : Z) (fuel : nat) :
  forall fuel' x y g0,
    (fuel <= fuel')%nat ->
    rho_while fuel n c x y g0 <> LoopFuel ->
    rho_while fuel' n c x y g0 = rho_while fuel n c x y g0.
Proof.
  induction fuel as [| fuel IH]; intros fuel' x y g0 Hle Hne.
  - rewrite (rho_while_unfold n c 0) in Hne |- *.
    rewrite (rho_while_unfold n c fuel').
    destruct (g0 =? 1); [contradiction | reflexivity].
  - destruct fuel' as [| fuel']; [lia |].
    rewrite (rho_while_unfold n c (S fuel)) in Hne |- *.
    rewrite (rho_while_unfold n c (S fuel')).
    destruct (g0 =? 1); [| reflexivity]. cbv zeta in *.
    destruct (_ =? n); [reflexivity |].
    destruct (_ >? 1); [reflexivity |].
    apply IH; [lia | exact Hne].
Qed.

Lemma rho_attempt_more_fuel (fuel : nat) (r : rng) :
  (Z.to_nat n <= fuel)%nat ->
  rho_attempt fuel n r = rho_attempt (Z.to_nat n) n r.
Proof.
  intros Hle. rewrite !rho_attempt_eq. f_equal.
  apply rho_while_more_fuel; [exact Hle |].
  apply rho_while_enough_fuel; lia.
Qed.

Lemma rho_for_more_fuel (k fuel : nat) :
  (Z.to_nat n <= fuel)%nat ->
  forall r, rho_for k fuel n r = rho_for k (Z.to_nat n) n r.
Proof.
  intros Hle. induction k as [| k IH]; intros r; [reflexivity |].
  cbn [rho_for]. unfold bind.
  rewrite (rho_attempt_more_fuel fuel r Hle), rho_attempt_eq.
  destruct (rho_while _ _ _ _ _ _); try reflexivity; apply IH.
Qed.

(** Whatever the retry loop returns is [n] or a proper divisor of [n]. *)
Lemma rho_for_returned (k fuel : nat) :
  forall r d r',
    rho_for k fuel n r = Returned d r' ->
    d = n \/ (1 < d < n /\ (d | n)).
Proof.
  induction k as [| k IH]; intros r d r' H.
  - injection H as <- _. left. reflexivity.
  - cbn [rho_for] in H. unfold bind in H. rewrite rho_attempt_eq in H.
    destruct (rho_while _ _ _ _ _ _) eqn:E.
    + exact (IH _ _ _ H).
    + exact (IH _ _ _ H).
    + injection H as <- _. right.
      apply (rho_while_return n _ ltac:(lia) _ _ _ _ E).
    + discriminate H.
Qed.

(** With fuel [n] the retry loop returns; the exits of its attempts, in
    order, are failures followed by at most one [return g]. *)
Lemma rho_for_run (k fuel : nat) :
  (Z.to_nat n <= fuel)%nat ->
  forall r, exists d r' es,
    rho_for k fuel n r = Returned d r' /\
    attempts_run fuel n r es r' /\
    (length es <= k)%nat /\
    pos r' = (pos r + 2 * length es)%nat /\
    tape r' = tape r /\
    ((Forall failed es /\ length es = k /\ d = n) \/
     (exists es0 g, es = es0 ++ [LoopReturn g] /\ Forall failed es0 /\
                    d = g /\ 1 < g < n /\ (g | n))).
Proof.
  intros Hfuel. induction k as [| k IH]; intros r.
  - exists n, r, []. split; [reflexivity |]. split; [constructor |].
    split; [simpl; lia |]. split; [simpl; lia |]. split; [reflexivity |].
    left. split; [constructor | split; reflexivity].
  - pose proof (rho_attempt_eq fuel r) as Ha.
    pose proof (rho_while_enough_fuel n (draw 1 (n - 1) (next r)) ltac:(lia)
                  fuel (draw 2 (n - 1) r) Hfuel) as Hnf.
    pose proof (rho_while_not_end n (draw 1 (n - 1) (next r)) ltac:(lia)
                  fuel (draw 2 (n - 1) r) (draw 2 (n - 1) r)) as Hne.
    cbn [rho_for]. unfold bind. rewrite Ha.
    destruct (rho_while _ _ _ _ _ _) eqn:E; try contradiction.
    + destruct (IH (next (next r)))
        as (d & r' & es & Hret & Hrun & Hlen & Hpos & Htape & Hcase).
      exists d, r', (LoopBreak :: es). split; [exact Hret |].
      split; [econstructor; [exact Ha | exact Hrun] |].
      split; [simpl; lia |]. split; [simpl in *; lia |].
      split; [exact Htape |].
      destruct Hcase as [(Hall & Hk & Hd) | (es0 & g & -> & Hall & Hd & Hg)].
      * left. repeat split; [| simpl; lia | exact Hd].
        constructor; [right; reflexivity | exact Hall].
      * right. exists (LoopBreak :: es0), g. repeat split; try tauto.
        constructor; [right; reflexivity | exact Hall].
    + exists g, (next (next r)), [LoopReturn g]. split; [reflexivity |].
      split; [econstructor; [exact Ha | constructor] |].
      split; [simpl; lia |]. split; [simpl; lia |]. split; [reflexivity |].
      right. exists [], g.
      pose proof (rho_while_return n _ ltac:(lia) _ _ _ _ E) as Hg.
      repeat split; try tauto. constructor.
Qed.

End Attempts.

(** ** The code against the state machine *)

Section Refinement.

Import Machine.

Variable n : Z.
Hypothesis n_ge : 3 <= n.

Lemma steps_trans (p q s : phase) :
  steps n p q -> steps n q s -> steps n p s.
Proof.
  induction 1 as [| p q t Hpq _ IH]; intros Hs; [exact Hs |].
  econstructor; [exact Hpq | exact (IH Hs)].
Qed.

Lemma steps_one (p q : phase) : step n p q -> steps n p q.
Proof. intros H. econstructor; [exact H | constructor]. Qed.

(** [pow(t, 2, n) + c] reduced again is the recurrence of the machine. *)
Lemma rho_f_recur (c t : Z) : rho_f n c t = recur n c t.
Proof.
  unfold rho_f, recur, pow_mod. apply Z.add_mod_idemp_l. lia.
Qed.

Lemma advance_eq (c x y g : Z) :
  advance n (mkRho x y c g) =
  mkRho (rho_f n c x) (rho_f n c (rho_f n c y)) c
        (Z.gcd (Z.abs (rho_f n c x - rho_f n c (rho_f n c y))) n).
Proof. unfold advance. cbn [rs_x rs_y rs_c]. rewrite !rho_f_recur. reflexivity. Qed.

(** *** The machine against the code *)

Lemma final_no_step (p q : phase) (d : Z) :
  output n p = Some d -> step n p q -> False.
Proof. intros Ho Hs. destruct Hs; discriminate Ho. Qed.

Lemma final_steps (p q : phase) (d : Z) :
  output n p = Some d -> steps n p q -> q = p.
Proof.
  intros Ho Hs. destruct Hs as [| p q s Hpq _]; [reflexivity |].
  exfalso. exact (final_no_step p q d Ho Hpq).
Qed.

(** Between INIT and the next RETRY or FACTOR_FOUND the machine has no
    choice: a run that ends goes through the phase the loop of the code
    reaches. *)
Lemma while_sim_inv (c : Z) (used fuel : nat) (p : phase) (d : Z) :
  output n p = Some d ->
  forall x y,
    rho_while fuel n c x y 1 <> LoopFuel ->
    steps n (ITERATING used (mkRho x y c 1)) p ->
    steps n (after_loop used (rho_while fuel n c x y 1)) p.
Proof.
  intros Ho.
  induction fuel as [| fuel IH]; intros x y Hne Hs;
    [contradiction Hne; reflexivity |].
  inversion Hs as [| ? q ? Hstep Hrest]; subst; [discriminate Ho |].
  inversion Hstep as [| ? s Hg | ? s Hg1 _ | ? s Hg1 _ | |]; subst;
    cbn [rs_g] in *; try congruence.
  rewrite advance_eq in Hrest.
  destruct (rho_round n c ltac:(lia) x y fuel)
    as [[Hgn E] | [[Hgn E] | (Hgn & _ & E)]]; rewrite E in Hne |- *.
  - inversion Hrest as [| ? q' ? Hstep' Hrest']; subst; [discriminate Ho |].
    inversion Hstep'; subst; cbn [rs_g] in *; try lia.
    exact Hrest'.
  - inversion Hrest as [| ? q' ? Hstep' Hrest']; subst; [discriminate Ho |].
    inversion Hstep'; subst; cbn [rs_g] in *; try lia.
    exact Hrest'.
  - rewrite Hgn in Hrest. exact (IH _ _ Hne Hrest).
Qed.

(** The retry loop reads the generator from its current position on. *)
Lemma rho_for_local (fuel k : nat) :
  forall t t' q,
    (forall i, (q <= i)%nat -> t i = t' i) ->
    value (rho_for k fuel n (mkRng t q)) = value (rho_for k fuel n (mkRng t' q)).
Proof.
  induction k as [| k IH]; intros t t' q Hagree; [reflexivity |].
  cbn [rho_for]. unfold bind. rewrite !(rho_attempt_eq n n_ge).
  unfold draw, next. cbn [tape pos].
  rewrite <- (Hagree q), <- (Hagree (S q)) by lia.
  destruct (rho_while _ _ _ _ _ _); try reflexivity; apply IH;
    intros i Hi; apply Hagree; lia.
Qed.

(** Every run of the machine that ends is the run of the code on some
    generator. *)
Lemma for_sim_inv (fuel k : nat) :
  (Z.to_nat n <= fuel)%nat ->
  forall used p d q,
    (used + k = RetryBudget)%nat ->
    output n p = Some d ->
    (steps n (RETRY used) p ->
     exists t, value (rho_for k fuel n (mkRng t q)) = Some d) /\
    (k <> 0%nat -> steps n (INIT used) p ->
     exists t, value (rho_for k fuel n (mkRng t q)) = Some d).
Proof.
  intros Hfuel. induction k as [| k IH]; intros used p d q Hused Ho.
  - split; [| intros Hk; contradiction Hk; reflexivity].
    intros Hs. exists (fun _ => 0).
    inversion Hs as [| ? q' ? Hstep Hrest]; subst; [discriminate Ho |].
    inversion Hstep; subst; [unfold RetryBudget in *; lia |].
    apply (final_steps EXHAUSTED p n eq_refl) in Hrest. subst p.
    cbn in Ho |- *. congruence.
  - assert (Hinit : steps n (INIT used) p ->
              exists t, value (rho_for (S k) fuel n (mkRng t q)) = Some d).
    { intros Hs.
      inversion Hs as [| ? q' ? Hstep Hrest]; subst; [discriminate Ho |].
      inversion Hstep as [? x0 c Hx Hc | | | | |]; subst.
      pose proof (rho_while_enough_fuel n c ltac:(lia) fuel x0 Hfuel) as Hnf.
      pose proof (rho_while_not_end n c ltac:(lia) fuel x0 x0) as Hne.
      pose proof (while_sim_inv c (S used) fuel p d Ho x0 x0 Hnf Hrest) as Hafter.
      destruct (rho_while fuel n c x0 x0 1) as [| | g |] eqn:E;
        try contradiction; cbn [after_loop] in Hafter.
      - destruct (IH (S used) p d (S (S q)) ltac:(lia) Ho) as [Hretry _].
        destruct (Hretry Hafter) as (t' & Ht').
        set (t := fun i => if (i =? q)%nat then x0 - 2
                           else if (i =? S q)%nat then c - 1 else t' i).
        assert (Ht0 : t q = x0 - 2) by (unfold t; rewrite Nat.eqb_refl; reflexivity).
        assert (Ht1 : t (S q) = c - 1).
        { unfold t. rewrite Nat.eqb_refl.
          destruct (Nat.eqb_spec (S q) q); [lia | reflexivity]. }
        exists t.
        cbn [rho_for]. unfold bind. rewrite (rho_attempt_eq n n_ge).
        unfold next. cbn [tape pos].
        rewrite (randint_onto 2 (n - 1) x0 t q ltac:(lia) Ht0).
        rewrite (randint_onto 1 (n - 1) c t (S q) ltac:(lia) Ht1).
        rewrite E, <- Ht'. apply rho_for_local.
        intros i Hi. unfold t.
        destruct (Nat.eqb_spec i q); [lia |].
        destruct (Nat.eqb_spec i (S q)); [lia | reflexivity].
      - apply (final_steps (FACTOR_FOUND g) p g eq_refl) in Hafter. subst p.
        set (t := fun i => if (i =? q)%nat then x0 - 2 else c - 1).
        assert (Ht0 : t q = x0 - 2) by (unfold t; rewrite Nat.eqb_refl; reflexivity).
        assert (Ht1 : t (S q) = c - 1).
        { unfold t. destruct (Nat.eqb_spec (S q) q); [lia | reflexivity]. }
        exists t.
        cbn [rho_for]. unfold bind. rewrite (rho_attempt_eq n n_ge).
        unfold next. cbn [tape pos].
        rewrite (randint_onto 2 (n - 1) x0 t q ltac:(lia) Ht0).
        rewrite (randint_onto 1 (n - 1) c t (S q) ltac:(lia) Ht1).
        rewrite E. cbn in Ho |- *. congruence. }
    split; [| intros _; exact Hinit].
    intros Hs.
    inversion Hs as [| ? q' ? Hstep Hrest]; subst; [discriminate Ho |].
    inversion Hstep; subst; [exact (Hinit Hrest) |].
    unfold RetryBudget in *. lia.
Qed.

End Refinement.

(** ** The code against the machine run on the same generator *)

Section Driven.

Import Machine.

Variable n : Z.
Hypothesis n_ge : 3 <= n.

Lemma driven_trans (a b c : phase * rng) :
  driven_steps n a b -> driven_steps n b c -> driven_steps n a c.
Proof.
  induction 1 as [| a b t Hab _ IH]; intros Hs; [exact Hs |].
  econstructor; [exact Hab | exact (IH Hs)].
Qed.

Lemma driven_one (a b : phase * rng) :
  driven_step n a b -> driven_steps n a b.
Proof. intros H. econstructor; [exact H | constructor]. Qed.

(** A run on a generator is a run of the machine. *)
Lemma driven_is_run (a b : phase * rng) :
  driven_steps n a b -> steps n (fst a) (fst b).
Proof.
  induction 1 as [| a b c Hab _ IH]; [constructor |].
  econstructor; [| exact IH].
  destruct Hab; assumption.
Qed.

(** The rounds of the loop, with the generator untouched. *)
Lemma while_drive (c : Z) (used fuel : nat) (r : rng) :
  forall x y,
    rho_while fuel n c x y 1 <> LoopFuel ->
    driven_steps n (ITERATING used (mkRho x y c 1), r)
                   (after_loop used (rho_while fuel n c x y 1), r).
Proof.
  induction fuel as [| fuel IH]; intros x y Hne;
    [contradiction Hne; reflexivity |].
  assert (Hstep : driven_step n (ITERATING used (mkRho x y c 1), r)
                    (ITERATING used (advance n (mkRho x y c 1)), r))
    by (apply driven_move; [reflexivity | apply step_iterate; reflexivity]).
  rewrite (advance_eq n n_ge) in Hstep.
  destruct (rho_round n c ltac:(lia) x y fuel)
    as [[Hg E] | [[Hg E] | (Hg & _ & E)]]; rewrite E in Hne |- *.
  - econstructor; [exact Hstep |]. apply driven_one.
    apply driven_move; [reflexivity |].
    apply step_collapse; cbn [rs_g]; lia.
  - econstructor; [exact Hstep |]. apply driven_one.
    apply driven_move; [reflexivity |]. cbn [after_loop].
    match goal with
    | |- step _ (ITERATING _ ?s) _ =>
        apply (step_found n used s); cbn [rs_g]; lia
    end.
  - econstructor; [exact Hstep |]. rewrite Hg. apply IH. exact Hne.
Qed.

(** One attempt of the code is the stretch of the machine from INIT to the
    next RETRY or to FACTOR_FOUND, on the same two draws. *)
Lemma attempt_drive (used fuel : nat) (r : rng) (e : loop_exit) (r1 : rng) :
  rho_attempt fuel n r = Returned e r1 -> e <> LoopFuel ->
  driven_steps n (INIT used, r) (after_loop (S used) e, r1).
Proof.
  intros H Hne. rewrite (rho_attempt_eq n n_ge) in H.
  assert (He : rho_while fuel n (draw 1 (n - 1) (next r))
                 (draw 2 (n - 1) r) (draw 2 (n - 1) r) 1 = e) by congruence.
  assert (Hr : next (next r) = r1) by congruence.
  subst e r1. clear H.
  econstructor.
  - apply (driven_draw n used r (draw 2 (n - 1) r) (next r)
             (draw 1 (n - 1) (next r)) (next (next r))).
    + apply randint_eq. lia.
    + apply randint_eq. lia.
    + apply step_init; apply draw_range; lia.
  - apply while_drive. exact Hne.
Qed.

(** The [for] loop with [k] rounds to go against the machine in RETRY. *)
Lemma for_drive (fuel k : nat) :
  forall used r d r',
    (used + k = RetryBudget)%nat ->
    rho_for k fuel n r = Returned d r' ->
    (exists p, driven_steps n (RETRY used, r) (p, r') /\
               output n p = Some d) /\
    (k <> 0%nat ->
     exists p, driven_steps n (INIT used, r) (p, r') /\ output n p = Some d).
Proof.
  induction k as [| k IH]; intros used r d r' Hused H.
  - split; [| intros Hk; contradiction Hk; reflexivity].
    assert (Hd : n = d) by (cbn [rho_for] in H; unfold ret in H; congruence).
    assert (Hr : r = r') by (cbn [rho_for] in H; unfold ret in H; congruence).
    subst d r'. exists EXHAUSTED. split; [| reflexivity].
    apply driven_one, driven_move; [reflexivity |].
    apply step_exhausted. lia.
  - assert (Hinit : exists p, driven_steps n (INIT used, r) (p, r') /\
                              output n p = Some d).
    { cbn [rho_for] in H. unfold bind in H.
      destruct (rho_attempt fuel n r) as [e r1 | |] eqn:Ha; try discriminate H.
      pose proof (attempt_drive used fuel r e r1 Ha) as Hsim.
      destruct e; cbn [after_loop] in Hsim.
      - destruct (IH (S used) r1 d r' ltac:(lia) H) as [(p & Hp & Ho) _].
        exists p. split; [| exact Ho].
        eapply driven_trans; [apply Hsim; discriminate | exact Hp].
      - destruct (IH (S used) r1 d r' ltac:(lia) H) as [(p & Hp & Ho) _].
        exists p. split; [| exact Ho].
        eapply driven_trans; [apply Hsim; discriminate | exact Hp].
      - assert (Hd : g = d) by (unfold ret in H; congruence).
        assert (Hr : r1 = r') by (unfold ret in H; congruence).
        subst d r'. exists (FACTOR_FOUND g).
        split; [apply Hsim; discriminate | reflexivity].
      - discriminate H. }
    split; [| intros _; exact Hinit].
    destruct Hinit as (p & Hp & Ho). exists p. split; [| exact Ho].
    econstructor; [| exact Hp].
    apply driven_move; [reflexivity |]. apply step_retry. lia.
Qed.

(** Outside INIT the machine has one step at most. *)
Lemma step_det (p q q' : phase) :
  drawing p = false -> step n p q -> step n p q' -> q = q'.
Proof.
  intros Hp H1 H2.
  destruct H1; inversion H2; subst; try reflexivity;
    try discriminate Hp; cbn [rs_g] in *; try lia; try contradiction.
Qed.

(** On a generator, every phase has one step at most. *)
Lemma driven_step_det (a b b' : phase * rng) :
  driven_step n a b -> driven_step n a b' -> b = b'.
Proof.
  intros H1 H2.
  destruct H1 as [used r x0 r1 c r2 Hx Hc _ | p q r Hp Hs];
    inversion H2 as [? ? x0' r1' c' r2' Hx' Hc' _ | ? q' ? Hp' Hs']; subst.
  - rewrite Hx in Hx'.
    assert (x0 = x0') by congruence. assert (r1 = r1') by congruence. subst.
    rewrite Hc in Hc'.
    assert (c = c') by congruence. assert (r2 = r2') by congruence. subst.
    reflexivity.
  - discriminate Hp'.
  - discriminate Hp.
  - rewrite (step_det p q q' Hp Hs Hs'). reflexivity.
Qed.

Lemma driven_final_stuck (a b : phase * rng) (d : Z) :
  output n (fst a) = Some d -> driven_step n a b -> False.
Proof.
  intros Ho H. destruct H; cbn [fst] in Ho; [discriminate Ho |].
  eapply final_no_step; eassumption.
Qed.

(** Two runs on the same generator that both end, end alike. *)
Lemma driven_unique (a b : phase * rng) :
  driven_steps n a b ->
  forall b' d d',
    output n (fst b) = Some d -> output n (fst b') = Some d' ->
    driven_steps n a b' -> b = b'.
Proof.
  induction 1 as [a | a a1 b Hstep _ IH]; intros b' d d' Ho Ho' Hs'.
  - destruct Hs' as [| a a1' b' Hstep' _]; [reflexivity |].
    exfalso. exact (driven_final_stuck a a1' d Ho Hstep').
  - destruct Hs' as [a | a a1' b' Hstep' Hrest'].
    + exfalso. exact (driven_final_stuck a a1 d' Ho' Hstep).
    + rewrite <- (driven_step_det _ _ _ Hstep Hstep') in Hrest'.
      exact (IH b' d d' Ho Ho' Hrest').
Qed.

End Driven.

(** ** The whole call *)

Section Call.

Lemma not_fast_path (n : Z) :
  2 <= n -> n mod 2 <> 0 -> n mod 3 <> 0 -> 5 <= n.
Proof. intros. Z.div_mod_to_equations. lia. Qed.

Lemma pollards_rho_slow (fuel : nat) (n : Z) :
  n mod 2 <> 0 -> n mod 3 <> 0 ->
  pollards_rho fuel n = rho_for max_retries fuel n.
Proof.
  intros H2 H3. unfold pollards_rho.
  destruct (Z.eqb_spec (n mod 2) 0); [contradiction |].
  destruct (Z.eqb_spec (n mod 3) 0); [contradiction |]. reflexivity.
Qed.

(** A returned value is [n] or a proper divisor of [n], whatever the fuel. *)
Lemma pollards_rho_returned (fuel : nat) (n : Z) (r : rng) (d : Z) (r' : rng) :
  2 <= n -> pollards_rho fuel n r = Returned d r' ->
  d = n \/ (1 < d < n /\ (d | n)).
Proof.
  intros Hn H. unfold pollards_rho in H.
  destruct (Z.eqb_spec (n mod 2) 0) as [E2 | E2].
  - injection H as <- _.
    destruct (Z.eq_dec n 2); [left; congruence | right].
    split; [lia | apply Z.mod_divide; lia].
  - destruct (Z.eqb_spec (n mod 3) 0) as [E3 | E3].
    + injection H as <- _.
      destruct (Z.eq_dec n 3); [left; congruence | right].
      split; [Z.div_mod_to_equations; lia | apply Z.mod_divide; lia].
    + pose proof (not_fast_path n Hn E2 E3) as Hge.
      apply (rho_for_returned n ltac:(lia) _ _ _ _ _ H).
Qed.

(** With fuel [n] the call returns, and more fuel returns the same. *)
Lemma pollards_rho_total (n : Z) (r : rng) :
  2 <= n ->
  exists d r', forall fuel, (Z.to_nat n <= fuel)%nat ->
                            pollards_rho fuel n r = Returned d r'.
Proof.
  intros Hn. unfold pollards_rho.
  destruct (Z.eqb_spec (n mod 2) 0) as [E2 | E2]; [exists 2, r; reflexivity |].
  destruct (Z.eqb_spec (n mod 3) 0) as [E3 | E3]; [exists 3, r; reflexivity |].
  assert (Hge : 3 <= n) by (pose proof (not_fast_path n Hn E2 E3); lia).
  destruct (rho_for_run n Hge max_retries (Z.to_nat n) (le_n _) r)
    as (d & r' & _ & Hret & _).
  exists d, r'. intros fuel Hfuel.
  rewrite (rho_for_more_fuel n Hge max_retries fuel Hfuel). exact Hret.
Qed.

Lemma prime_13 : Z.prime 13.
Proof.
  split; [lia |]. intros m Hm Hdiv.
  apply Z.mod_divide in Hdiv; [| lia].
  assert (Hcases : m = 2 \/ m = 3 \/ m = 4 \/ m = 5 \/ m = 6 \/ m = 7 \/
                   m = 8 \/ m = 9 \/ m = 10 \/ m = 11 \/ m = 12) by lia.
  repeat (destruct Hcases as [-> | Hcases]; [discriminate Hdiv |]).
  subst m. discriminate Hdiv.
Qed.

Lemma prime_not_fast_path (n : Z) :
  Z.prime n -> 3 < n -> n mod 2 <> 0 /\ n mod 3 <> 0.
Proof.
  intros Hp Hn. split; apply (prime_no_proper_divisor n _ Hp); lia.
Qed.

End Call.

(** ** The properties of the specification *)

Import Trial.

(** C1. For every [n >= 2], a value [d <> n] returned by
    [trial_division_python n] or by [pollards_rho n] is a nontrivial divisor:
    [1 < d < n] and [n mod d = 0]. *)
Theorem divisor_validity (n : Z) :
  2 <= n ->
  (trial_division_python n <> n ->
   1 < trial_division_python n < n /\ n mod trial_division_python n = 0) /\
  (forall fuel r d r',
     pollards_rho fuel n r = Returned d r' -> d <> n ->
     1 < d < n /\ n mod d = 0).
Proof.
  intros Hn. split.
  - intros Hne. split.
    + apply trial_division_proper; assumption.
    + apply trial_division_divides.
  - intros fuel r d r' H Hne.
    destruct (pollards_rho_returned fuel n r d r' Hn H) as [-> | [Hd Hdiv]];
      [contradiction |].
    split; [exact Hd |]. apply Z.mod_divide; [lia | exact Hdiv].
Qed.

Lemma divisor_validity_witness :
  (1 < trial_division_python 91 < 91 /\ 91 mod trial_division_python 91 = 0) /\
  (1 < 83 < 8051 /\ 8051 mod 83 = 0).
Proof.
  split.
  - apply (proj1 (divisor_validity 91 ltac:(lia))).
    vm_compute. discriminate.
  - apply (proj2 (divisor_validity 8051 ltac:(lia))
             (Z.to_nat 8051) (count_rng 0 1) 83 (next (next (count_rng 0 1)))).
    + vm_compute. reflexivity.
    + discriminate.
Defined.

(** C2. For [n >= 2] not divisible by 2 or 3, [pollards_rho n] implements the
    state machine, run on the generator of the call.  Each attempt of the
    code is the stretch of the machine from INIT, which draws [x0] of
    [2..n-1] and then [c] of [1..n-1] from the generator and sets [y = x0],
    [g = 1], through the rounds of ITERATING, which while [g = 1] advance the
    tortoise once and the hare twice by [t -> (t^2 + c) mod n] and take
    [g = gcd(|x - y|, n)], to FACTOR_FOUND when [1 < g < n] and to RETRY when
    [g = n], leaving the generator as the attempt leaves it.  What the call
    returns, value and generator, is where the machine ends on that
    generator, going from RETRY to a fresh INIT on the next two draws while
    attempts remain; with fuel [n] the call does return; and where the
    machine ends on a generator is what the call returns.  Runs on a generator
    are runs of the machine, and every output of the machine is returned by
    the code on some generator. *)
Theorem rho_implements_machine (n : Z) (r : rng) :
  2 <= n -> n mod 2 <> 0 -> n mod 3 <> 0 ->
  (forall used fuel r0 e r1,
     rho_attempt fuel n r0 = Returned e r1 -> e <> LoopFuel ->
     driven_steps n (Machine.INIT used, r0) (after_loop (S used) e, r1)) /\
  (forall fuel d r',
     pollards_rho fuel n r = Returned d r' ->
     exists p, driven_steps n (Machine.INIT 0, r) (p, r') /\
               Machine.output n p = Some d) /\
  (exists d r', forall fuel, (Z.to_nat n <= fuel)%nat ->
                             pollards_rho fuel n r = Returned d r') /\
  (forall p r' d,
     driven_steps n (Machine.INIT 0, r) (p, r') ->
     Machine.output n p = Some d ->
     forall fuel, (Z.to_nat n <= fuel)%nat ->
                  pollards_rho fuel n r = Returned d r') /\
  (forall a b, driven_steps n a b -> Machine.steps n (fst a) (fst b)) /\
  (forall p d,
     Machine.steps n (Machine.INIT 0) p -> Machine.output n p = Some d ->
     exists r0, value (pollards_rho (Z.to_nat n) n r0) = Some d).
Proof.
  intros Hn H2 H3. pose proof (not_fast_path n Hn H2 H3) as Hge.
  assert (Hn3 : 3 <= n) by lia.
  assert (Hcode : forall fuel d r',
             pollards_rho fuel n r = Returned d r' ->
             exists p, driven_steps n (Machine.INIT 0, r) (p, r') /\
                       Machine.output n p = Some d).
  { intros fuel d r' H. rewrite pollards_rho_slow in H by assumption.
    destruct (for_drive n Hn3 fuel max_retries 0%nat r d r' eq_refl H)
      as [_ Hinit].
    apply Hinit. discriminate. }
  split; [| split; [exact Hcode | split; [| split; [| split]]]].
  - intros used fuel r0 e r1. apply attempt_drive. exact Hn3.
  - apply pollards_rho_total. exact Hn.
  - intros p r' d Hs Ho fuel Hfuel.
    destruct (pollards_rho_total n r Hn) as (d0 & r0 & Hret).
    destruct (Hcode (Z.to_nat n) d0 r0 (Hret _ (le_n _))) as (p0 & Hs0 & Ho0).
    pose proof (driven_unique n Hn3 (Machine.INIT 0, r) (p, r') Hs
                  (p0, r0) d d0 Ho Ho0 Hs0) as E.
    assert (Hp : p = p0) by congruence. assert (Hr : r' = r0) by congruence.
    subst p0 r0. rewrite Ho in Ho0.
    assert (Hd : d = d0) by congruence. subst d0.
    apply Hret. exact Hfuel.
  - apply driven_is_run.
  - intros p d Hs Ho. rewrite pollards_rho_slow by assumption.
    destruct (for_sim_inv n Hn3 (Z.to_nat n) max_retries (le_n _)
                0%nat p d 0%nat eq_refl Ho) as [_ Hinit].
    destruct (Hinit ltac:(discriminate) Hs) as (t & Ht).
    exists (mkRng t 0). exact Ht.
Qed.

Lemma rho_implements_machine_witness :
  (exists p,
     driven_steps 35 (Machine.INIT 0, retry_once_rng 35)
       (p, next (next (next (next (retry_once_rng 35))))) /\
     Machine.output 35 p = Some 7) /\
  driven_steps 35 (Machine.INIT 0, retry_once_rng 35)
    (Machine.RETRY 1, next (next (retry_once_rng 35))).
Proof.
  pose proof (rho_implements_machine 35 (retry_once_rng 35)
                ltac:(lia) ltac:(discriminate) ltac:(discriminate))
    as (Hattempt & Hcode & _).
  split.
  - apply (Hcode 35%nat 7 (next (next (next (next (retry_once_rng 35)))))).
    vm_compute. reflexivity.
  - apply (Hattempt 0%nat 35%nat (retry_once_rng 35) LoopBreak
             (next (next (retry_once_rng 35)))).
    + vm_compute. reflexivity.
    + discriminate.
Defined.

(** C3. For every odd [n >= 3], [trial_division_python n] is the smallest odd
    candidate [i = 3, 5, 7, ...] with [i * i <= n] that divides [n], and it is
    [n] when there is none; [trial_division_python 15 = 3]; and for every
    prime [p], [trial_division_python p = p]. *)
Theorem trial_division_first_odd_divisor :
  (forall n, 3 <= n -> Z.odd n = true ->
     ((exists i, candidate n i /\ n mod i = 0) ->
      candidate n (trial_division_python n) /\
      n mod trial_division_python n = 0 /\
      forall j, candidate n j -> n mod j = 0 -> trial_division_python n <= j) /\
     ((forall i, candidate n i -> n mod i <> 0) ->
      trial_division_python n = n)) /\
  trial_division_python 15 = 3 /\
  (forall p, Z.prime p -> trial_division_python p = p).
Proof.
  split; [| split; [reflexivity | exact trial_division_prime]].
  intros n Hn Hodd. unfold trial_division_python.
  assert (E : (n mod 2 =? 0) = false).
  { apply Z.eqb_neq. rewrite Zmod_odd, Hodd. discriminate. }
  rewrite E. unfold candidate.
  destruct (trial_loop_spec n 3 ltac:(lia) eq_refl)
    as [(Hle & Hd & Hsq & Hdiv & Hmin) | (Heq & Hnone)].
  - split.
    + intros _. repeat split; try assumption.
      intros j (Hj3 & Hjodd & Hjsq) Hjdiv.
      destruct (Z_lt_le_dec j (trial_loop n 3)) as [Hlt | Hge]; [| exact Hge].
      exfalso. apply (Hmin j); [lia | assumption | assumption].
    + intros Hno. exfalso. apply (Hno (trial_loop n 3)); [| exact Hdiv].
      repeat split; assumption.
  - split.
    + intros (i & (Hi3 & Hiodd & Hisq) & Hidiv).
      exfalso. apply (Hnone i); assumption.
    + intros _. exact Heq.
Qed.

Lemma trial_division_first_odd_divisor_witness :
  (candidate 91 (trial_division_python 91) /\
   91 mod trial_division_python 91 = 0 /\
   forall j, candidate 91 j -> 91 mod j = 0 -> trial_division_python 91 <= j) /\
  trial_division_python 13 = 13.
Proof.
  split.
  - apply (proj1 (proj1 trial_division_first_odd_divisor 91
                    ltac:(lia) eq_refl)).
    exists 7. unfold candidate. repeat split; lia.
  - apply (proj2 (proj2 trial_division_first_odd_divisor) 13 prime_13).
Defined.

(** C4. For every prime [n > 3], [pollards_rho n] returns [n] itself, after
    all [max_retries] attempts have failed; no other value is ever returned
    for a prime. *)
Theorem rho_prime_returns_n (n : Z) (r : rng) :
  Z.prime n -> 3 < n ->
  (forall fuel, (Z.to_nat n <= fuel)%nat ->
     exists r' es,
       pollards_rho fuel n r = Returned n r' /\
       attempts_run fuel n r es r' /\
       Forall failed es /\ length es = max_retries) /\
  (forall fuel d r', pollards_rho fuel n r = Returned d r' -> d = n).
Proof.
  intros Hp Hn. destruct (prime_not_fast_path n Hp Hn) as [H2 H3].
  assert (Hnodiv : forall g, 1 < g < n -> ~ (g | n)).
  { intros g Hg Hdiv. apply (prime_no_proper_divisor n g Hp Hg).
    apply Z.mod_divide; [lia | exact Hdiv]. }
  split.
  - intros fuel Hfuel. rewrite pollards_rho_slow by assumption.
    destruct (rho_for_run n ltac:(lia) max_retries fuel Hfuel r)
      as (d & r' & es & Hret & Hrun & _ & _ & _ & Hcase).
    destruct Hcase as [(Hall & Hlen & ->) | (_ & g & _ & _ & _ & Hg & Hdiv)].
    + exists r', es. repeat split; assumption.
    + exfalso. exact (Hnodiv g Hg Hdiv).
  - intros fuel d r' H.
    destruct (pollards_rho_returned fuel n r d r' ltac:(lia) H)
      as [-> | [Hd Hdiv]]; [reflexivity |].
    exfalso. exact (Hnodiv d Hd Hdiv).
Qed.

Lemma rho_prime_returns_n_witness :
  exists r' es,
    pollards_rho 13 13 (count_rng 0 1) = Returned 13 r' /\
    attempts_run 13 13 (count_rng 0 1) es r' /\
    Forall failed es /\ length es = max_retries.
Proof.
  apply (proj1 (rho_prime_returns_n 13 (count_rng 0 1) prime_13 ltac:(lia))
           13%nat).
  vm_compute. repeat constructor.
Defined.

(** C5. A call of [pollards_rho] makes at most [max_retries = 5] attempts,
    each drawing its own [x0] and [c] from the generator, and when the
    randomized search is entered and every attempt fails, all five were made
    and the call returns [n]. *)
Theorem rho_retry_budget (n : Z) (r : rng) (fuel : nat) :
  2 <= n -> (Z.to_nat n <= fuel)%nat ->
  exists d r' es,
    pollards_rho fuel n r = Returned d r' /\
    attempts_run fuel n r es r' /\
    (length es <= 5)%nat /\
    pos r' = (pos r + 2 * length es)%nat /\
    (n mod 2 <> 0 -> n mod 3 <> 0 -> Forall failed es ->
     length es = 5%nat /\ d = n).
Proof.
  intros Hn Hfuel. unfold pollards_rho.
  destruct (Z.eqb_spec (n mod 2) 0) as [E2 | E2].
  { exists 2, r, []. split; [reflexivity |]. split; [constructor |].
    split; [simpl; lia |]. split; [simpl; lia |]. intros H; contradiction. }
  destruct (Z.eqb_spec (n mod 3) 0) as [E3 | E3].
  { exists 3, r, []. split; [reflexivity |]. split; [constructor |].
    split; [simpl; lia |]. split; [simpl; lia |]. intros _ H; contradiction. }
  pose proof (not_fast_path n Hn E2 E3) as Hge.
  destruct (rho_for_run n ltac:(lia) max_retries fuel Hfuel r)
    as (d & r' & es & Hret & Hrun & Hlen & Hpos & _ & Hcase).
  exists d, r', es. split; [exact Hret |]. split; [exact Hrun |].
  split; [exact Hlen |]. split; [exact Hpos |].
  intros _ _ Hall.
  destruct Hcase as [(_ & Hk & Hd) | (es0 & g & -> & _)].
  - split; assumption.
  - exfalso. apply Forall_app in Hall. destruct Hall as [_ Hlast].
    apply Forall_inv in Hlast. destruct Hlast; discriminate.
Qed.

(** C6. For every [n >= 2], [trial_division_python n] terminates, its loop
    leaving within [n] tests of the condition, and the value [d] it returns
    satisfies [n mod d = 0], with [d = n] at worst. *)
Theorem trial_division_terminates_divides (n : Z) :
  2 <= n ->
  exists d,
    (forall fuel, (Z.to_nat n <= fuel)%nat ->
                  trial_division_steps fuel n = Some d) /\
    trial_division_python n = d /\
    n mod d = 0 /\ 2 <= d <= n.
Proof.
  intros Hn. exists (trial_division_python n). split; [| split; [reflexivity |]].
  - intros fuel Hfuel. unfold trial_division_steps, trial_division_python.
    destruct (n mod 2 =? 0); [reflexivity |].
    apply trial_loop_steps_enough. lia.
  - split; [apply trial_division_divides |].
    destruct (Z.eq_dec (trial_division_python n) n) as [E | E]; [lia |].
    pose proof (trial_division_proper n Hn E). lia.
Qed.

Lemma trial_division_terminates_divides_witness :
  exists d,
    (forall fuel, (Z.to_nat 997 <= fuel)%nat ->
                  trial_division_steps fuel 997 = Some d) /\
    trial_division_python 997 = d /\
    997 mod d = 0 /\ 2 <= d <= 997.
Proof.
  apply (trial_division_terminates_divides 997). lia.
Defined.

(** C7. For every even [n > 2], [trial_division_python n] and
    [pollards_rho n] both return 2. *)
Theorem even_fast_path (n : Z) :
  2 < n -> n mod 2 = 0 ->
  trial_division_python n = 2 /\
  forall fuel r, pollards_rho fuel n r = Returned 2 r.
Proof.
  intros _ Heven. unfold trial_division_python, pollards_rho.
  rewrite Heven. split; reflexivity.
Qed.

Lemma even_fast_path_witness :
  trial_division_python 10 = 2 /\
  pollards_rho 10 10 (const_rng 0) = Returned 2 (const_rng 0).
Proof.
  destruct (even_fast_path 10 ltac:(lia) eq_refl) as [Ht Hr].
  split; [exact Ht | apply Hr].
Defined.

(** C8. For every [n > 3] that is a multiple of 3 and not even,
    [pollards_rho n] returns 3. *)
Theorem multiple_of_three_fast_path (n : Z) :
  3 < n -> n mod 3 = 0 -> n mod 2 <> 0 ->
  forall fuel r, pollards_rho fuel n r = Returned 3 r.
Proof.
  intros _ H3 H2 fuel r. unfold pollards_rho.
  destruct (Z.eqb_spec (n mod 2) 0); [contradiction |].
  rewrite H3. reflexivity.
Qed.

Lemma multiple_of_three_fast_path_witness :
  pollards_rho 21 21 (const_rng 0) = Returned 3 (const_rng 0).
Proof.
  apply (multiple_of_three_fast_path 21); [lia | reflexivity | discriminate].
Defined.

(** C9. Every call [pollards_rho n] with [n >= 2] terminates: from any start
    the tortoise and the hare meet within [n] rounds, there
    [gcd(|x - y|, n) = gcd(0, n) = n <> 1], so the [while] loop of an attempt
    is left within [n] rounds, and the call returns one value for every fuel
    from [n] on. *)
Theorem rho_terminates (n : Z) :
  2 <= n ->
  (forall c x0, exists k,
     (1 <= k <= Z.to_nat n)%nat /\
     tortoise n c x0 k = hare n c x0 k /\
     Z.gcd (Z.abs (tortoise n c x0 k - hare n c x0 k)) n = n /\ n <> 1) /\
  (forall c x0 fuel, (Z.to_nat n <= fuel)%nat ->
                     rho_while fuel n c x0 x0 1 <> LoopFuel) /\
  (forall r, exists d r', forall fuel, (Z.to_nat n <= fuel)%nat ->
                                       pollards_rho fuel n r = Returned d r').
Proof.
  intros Hn. split; [| split].
  - intros c x0. destruct (floyd_meet n c ltac:(lia) x0) as (k & Hk & E).
    exists k. split; [exact Hk |]. split; [exact E |].
    rewrite E, Z.sub_diag. change (Z.abs 0) with 0.
    rewrite Z.gcd_0_l, Z.abs_eq by lia. split; lia.
  - intros c x0 fuel Hfuel. apply rho_while_enough_fuel; [lia | exact Hfuel].
  - intros r. apply pollards_rho_total. exact Hn.
Qed.

Lemma rho_terminates_witness :
  exists d r', forall fuel, (Z.to_nat 35 <= fuel)%nat ->
                            pollards_rho fuel 35 (const_rng 0) = Returned d r'.
Proof.
  apply (proj2 (proj2 (rho_terminates 35 ltac:(lia))) (const_rng 0)).
Defined.

(** C10. For every [n >= 2], [pollards_rho n] returns a value that is at
    least 2, never 0 or 1; [pollards_rho 2 = 2] and [pollards_rho 3 = 3], the
    fast paths handing back the argument itself there. *)
Theorem rho_result_ge_2 :
  (forall n r, 2 <= n ->
     (forall fuel d r', pollards_rho fuel n r = Returned d r' -> 2 <= d) /\
     (exists d r', 2 <= d /\
        forall fuel, (Z.to_nat n <= fuel)%nat ->
                     pollards_rho fuel n r = Returned d r')) /\
  (forall fuel r, pollards_rho fuel 2 r = Returned 2 r) /\
  (forall fuel r, pollards_rho fuel 3 r = Returned 3 r).
Proof.
  split; [| split; reflexivity].
  intros n r Hn.
  assert (Hany : forall fuel d r',
             pollards_rho fuel n r = Returned d r' -> 2 <= d).
  { intros fuel d r' H.
    destruct (pollards_rho_returned fuel n r d r' Hn H) as [-> | [Hd _]]; lia. }
  split; [exact Hany |].
  destruct (pollards_rho_total n r Hn) as (d & r' & Hret).
  exists d, r'. split; [| exact Hret].
  apply (Hany (Z.to_nat n) d r'). apply Hret. apply le_n.
Qed.

Lemma rho_result_ge_2_witness :
  2 <= 83 /\
  exists d r', 2 <= d /\
    forall fuel, (Z.to_nat 8051 <= fuel)%nat ->
                 pollards_rho fuel 8051 (count_rng 0 1) = Returned d r'.
Proof.
  destruct (proj1 rho_result_ge_2 8051 (count_rng 0 1) ltac:(lia))
    as [Hany Hex].
  split; [| exact Hex].
  apply (Hany (Z.to_nat 8051) 83 (next (next (count_rng 0 1)))).
  vm_compute. reflexivity.
Defined.

(** ** Further properties of trial division *)

Section TrialDivisionMore.

Lemma odd_divisor (n m : Z) :
  n mod 2 <> 0 -> (m | n) -> Z.odd m = true.
Proof.
  intros Hn Hdiv. destruct (Z.odd m) eqn:E; [reflexivity | exfalso].
  apply Hn. apply Z.mod_divide; [lia |].
  apply (Z.divide_trans 2 m n); [| exact Hdiv].
  apply Z.mod_divide; [lia |]. rewrite Zmod_odd, E. reflexivity.
Qed.

(** No divisor of [n] from 2 on lies below the value returned. *)
Lemma trial_division_least (n j : Z) :
  2 <= n -> 2 <= j -> n mod j = 0 -> trial_division_python n <= j.
Proof.
  intros Hn Hj Hmod. unfold trial_division_python.
  destruct (Z.eqb_spec (n mod 2) 0) as [E2 | E2]; [lia |].
  assert (Hjn : (j | n)) by (apply Z.mod_divide; [lia | exact Hmod]).
  pose proof (odd_divisor n j E2 Hjn) as Hjodd.
  assert (Hj3 : 3 <= j).
  { destruct (Z.eq_dec j 2) as [-> | ?]; [discriminate Hjodd | lia]. }
  destruct (trial_loop_spec n 3 ltac:(lia) eq_refl)
    as [(Hle & Hd & Hsq & Hdiv & Hmin) | (Heq & Hnone)].
  - destruct (Z_lt_le_dec j (trial_loop n 3)) as [Hlt | Hge]; [| exact Hge].
    exfalso. apply (Hmin j); [lia | exact Hjodd | exact Hmod].
  - rewrite Heq.
    destruct (Z_lt_le_dec j n) as [Hlt | Hge]; [exfalso | exact Hge].
    destruct Hjn as [k Hk].
    assert (Hk2 : 2 <= k) by nia.
    assert (Hkn : (k | n)) by (exists j; lia).
    pose proof (odd_divisor n k E2 Hkn) as Hkodd.
    assert (Hk3 : 3 <= k).
    { destruct (Z.eq_dec k 2) as [-> | ?]; [discriminate Hkodd | lia]. }
    destruct (Z_le_gt_dec j k) as [Hjk | Hjk].
    + apply (Hnone j); [lia | exact Hjodd | nia | exact Hmod].
    + apply (Hnone k); [lia | exact Hkodd | nia |].
      apply Z.mod_divide; [lia | exact Hkn].
Qed.

Lemma trial_division_range (n : Z) :
  2 <= n -> 2 <= trial_division_python n <= n.
Proof.
  intros Hn.
  destruct (Z.eq_dec (trial_division_python n) n) as [E | E]; [lia |].
  pose proof (trial_division_proper n Hn E). lia.
Qed.

Lemma trial_division_is_prime (n : Z) :
  2 <= n -> Z.prime (trial_division_python n).
Proof.
  intros Hn. pose proof (trial_division_range n Hn) as Hr.
  split; [lia |]. intros m Hm Hdiv.
  assert (Hmn : (m | n)).
  { apply (Z.divide_trans m (trial_division_python n) n); [exact Hdiv |].
    apply Z.mod_divide; [lia | apply trial_division_divides]. }
  pose proof (trial_division_least n m Hn ltac:(lia)
                ltac:(apply Z.mod_divide; [lia | exact Hmn])). lia.
Qed.

(** A proper divisor of a product of two primes is one of them. *)
Lemma semiprime_divisor (p q d : Z) :
  Z.prime p -> Z.prime q -> 1 < d < p * q -> (d | p * q) -> d = p \/ d = q.
Proof.
  intros Hp Hq Hd Hdiv.
  pose proof (Z.prime_ge_2 p Hp) as Hp2. pose proof (Z.prime_ge_2 q Hq) as Hq2.
  destruct (Z.eq_dec (d mod p) 0) as [E | E].
  - apply Z.mod_divide in E; [| lia]. destruct E as [k Hk].
    assert (Hkq : (k | q)).
    { apply (Z.mul_divide_cancel_l k q p); [lia |].
      rewrite (Z.mul_comm p k), <- Hk. exact Hdiv. }
    destruct (Z.divide_prime_r k q Hq Hkq) as [-> | [-> | [-> | ->]]];
      [nia | nia | left; lia | nia].
  - right.
    assert (Hco : Z.gcd d p = 1).
    { rewrite Z.gcd_comm. apply Z.coprime_prime_l; [exact Hp |].
      intros Hpd. apply E. apply Z.mod_divide; [lia | exact Hpd]. }
    pose proof (Z.gauss d p q Hdiv Hco) as Hdq.
    destruct (Z.divide_prime_r d q Hq Hdq) as [-> | [-> | [-> | ->]]]; lia.
Qed.

Lemma trial_loop_eqn (n i : Z) :
  trial_loop n i =
  if i * i <=? n then (if n mod i =? 0 then i else trial_loop n (i + 2))
  else n.
Proof.
  funelim (trial_loop n i).
  - destruct (Z.leb_spec (i * i) n); [lia | reflexivity].
  - destruct (Z.leb_spec (i * i) n); [| lia].
    destruct (Z.eqb_spec (n mod i) 0); [reflexivity | lia].
  - destruct (Z.leb_spec (i * i) n); [| lia].
    destruct (Z.eqb_spec (n mod i) 0); [lia | reflexivity].
Qed.

(** The loop leaves within half the square root of [n] tests, from an [i]
    on. *)
Lemma trial_loop_steps_sqrt (fuel : nat) :
  forall n i,
    0 <= i -> (1 <= fuel)%nat -> Z.sqrt n - i + 3 <= 2 * Z.of_nat fuel ->
    trial_loop_steps fuel n i = Some (trial_loop n i).
Proof.
  induction fuel as [| fuel IH]; intros n i Hi Hfuel Hsq; [lia |].
  rewrite trial_loop_eqn. cbn [trial_loop_steps].
  destruct (Z.leb_spec (i * i) n) as [Hle | Hgt]; [| reflexivity].
  destruct (n mod i =? 0); [reflexivity |].
  assert (His : i <= Z.sqrt n) by (apply Z.sqrt_le_square; nia).
  apply IH; lia.
Qed.


End TrialDivisionMore.

(** X1. For [n >= 2], [trial_division_python n] is the least divisor of [n]
    greater than 1. *)
Theorem trial_division_least_divisor (n : Z) :
  2 <= n ->
  2 <= trial_division_python n <= n /\
  n mod trial_division_python n = 0 /\
  forall j, 2 <= j -> n mod j = 0 -> trial_division_python n <= j.
Proof.
  intros Hn. split; [apply trial_division_range; exact Hn |].
  split; [apply trial_division_divides |].
  intros j Hj Hmod. apply trial_division_least; assumption.
Qed.

Lemma trial_division_least_divisor_witness :
  2 <= trial_division_python 91 <= 91 /\
  91 mod trial_division_python 91 = 0 /\
  forall j, 2 <= j -> 91 mod j = 0 -> trial_division_python 91 <= j.
Proof. apply (trial_division_least_divisor 91). lia. Defined.

(** X2. For [n >= 2], the value [trial_division_python n] is a prime. *)
Theorem trial_division_returns_prime (n : Z) :
  2 <= n -> Z.prime (trial_division_python n).
Proof. apply trial_division_is_prime. Qed.

Lemma trial_division_returns_prime_witness :
  Z.prime (trial_division_python 8051).
Proof. apply (trial_division_returns_prime 8051). lia. Defined.

(** X3. For [n >= 2], [trial_division_python n = n] exactly when [n] is
    prime: the value [n] is a proof of primality, and any other value a
    proof of compositeness. *)
Theorem trial_division_primality_test (n : Z) :
  2 <= n -> (trial_division_python n = n <-> Z.prime n).
Proof.
  intros Hn. split.
  - intros E. rewrite <- E. apply trial_division_is_prime. exact Hn.
  - apply trial_division_prime.
Qed.

Lemma trial_division_primality_test_witness :
  (trial_division_python 13 = 13 <-> Z.prime 13) /\ ~ Z.prime 8051.
Proof.
  split.
  - apply (trial_division_primality_test 13). lia.
  - intros Hp.
    apply (proj2 (trial_division_primality_test 8051 ltac:(lia))) in Hp.
    vm_compute in Hp. discriminate Hp.
Defined.

(** X4. On the product of two primes [p <= q], as the benchmark builds its
    inputs, [trial_division_python] returns the smaller prime [p]. *)
Theorem trial_division_semiprime (p q : Z) :
  Z.prime p -> Z.prime q -> p <= q -> trial_division_python (p * q) = p.
Proof.
  intros Hp Hq Hle.
  pose proof (Z.prime_ge_2 p Hp) as Hp2. pose proof (Z.prime_ge_2 q Hq) as Hq2.
  assert (Hn : 2 <= p * q) by nia.
  pose proof (trial_division_is_prime (p * q) Hn) as Hd.
  assert (Hdiv : (trial_division_python (p * q) | p * q)).
  { apply Z.mod_divide; [pose proof (trial_division_range _ Hn); lia |].
    apply trial_division_divides. }
  assert (Hdp : trial_division_python (p * q) <= p).
  { apply trial_division_least; [exact Hn | exact Hp2 |].
    apply Z.mod_divide; [lia | apply Z.divide_factor_l]. }
  apply Z.divide_prime_mul in Hdiv; [| exact Hd].
  destruct Hdiv as [H | H]; apply Z.divide_prime_prime in H; try assumption; lia.
Qed.

Lemma trial_division_semiprime_witness : trial_division_python (3 * 13) = 3.
Proof. apply (trial_division_semiprime 3 13 Z.prime_3 prime_13). lia. Defined.

(** X5. For [n >= 2], applying [trial_division_python] to its own result
    changes nothing. *)
Theorem trial_division_idempotent (n : Z) :
  2 <= n ->
  trial_division_python (trial_division_python n) = trial_division_python n.
Proof.
  intros Hn. apply trial_division_prime. apply trial_division_is_prime. exact Hn.
Qed.

Lemma trial_division_idempotent_witness :
  trial_division_python (trial_division_python 91) = trial_division_python 91.
Proof. apply (trial_division_idempotent 91). lia. Defined.

(** X6. For every integer [n], the loop of [trial_division_python] tests its
    condition at most [sqrt n / 2] times, rounded up, and at least once:
    any budget [fuel >= 1] with [sqrt n <= 2 * fuel] reaches the result. *)
Theorem trial_division_sqrt_tests (n : Z) (fuel : nat) :
  (1 <= fuel)%nat -> Z.sqrt n <= 2 * Z.of_nat fuel ->
  trial_division_steps fuel n = Some (trial_division_python n).
Proof.
  intros Hfuel Hsq. unfold trial_division_steps, trial_division_python.
  destruct (n mod 2 =? 0); [reflexivity |].
  apply trial_loop_steps_sqrt; lia.
Qed.

Lemma trial_division_sqrt_tests_witness :
  trial_division_steps 16 997 = Some (trial_division_python 997).
Proof.
  apply (trial_division_sqrt_tests 997 16); [lia | vm_compute; discriminate].
Defined.



(** X8. Below the contract, for [n <= 1], [trial_division_python] raises
    nothing: it returns 2 when [n] is even, zero included, and [n] itself
    when [n] is odd, the loop not being entered. *)
Theorem trial_division_below_two (n : Z) :
  n <= 1 -> trial_division_python n = if Z.even n then 2 else n.
Proof.
  intros Hn. unfold trial_division_python.
  rewrite Zmod_even. destruct (Z.even n); [reflexivity |].
  change (1 =? 0) with false. cbv iota.
  rewrite trial_loop_eqn.
  destruct (Z.leb_spec (3 * 3) n); [lia | reflexivity].
Qed.

Lemma trial_division_below_two_witness :
  trial_division_python 1 = 1 /\ trial_division_python 0 = 2 /\
  trial_division_python (-15) = -15.
Proof.
  split; [| split].
  - apply (trial_division_below_two 1). lia.
  - apply (trial_division_below_two 0). lia.
  - apply (trial_division_below_two (-15)). lia.
Defined.

(** ** Further properties of Pollard's Rho *)

Section RhoMore.

Variable n : Z.

(** The loop stops at the first round whose gcd is not 1. *)
Lemma rho_while_first (c : Z) (fuel : nat) :
  1 < n ->
  forall x y k,
    (1 <= k <= fuel)%nat ->
    (forall j, (1 <= j < k)%nat ->
               Z.gcd (Z.abs (tortoise n c x j - hare n c y j)) n = 1) ->
    Z.gcd (Z.abs (tortoise n c x k - hare n c y k)) n <> 1 ->
    rho_while fuel n c x y 1 =
    if Z.gcd (Z.abs (tortoise n c x k - hare n c y k)) n =? n then LoopBreak
    else LoopReturn (Z.gcd (Z.abs (tortoise n c x k - hare n c y k)) n).
Proof.
  intros Hn. assert (Hpos : 0 < n) by lia.
  induction fuel as [| fuel IH]; intros x y k Hk Hbefore Hat; [lia |].
  destruct k as [| [| k]]; [lia | |].
  - change (tortoise n c x 1) with (rho_f n c x) in *.
    change (hare n c y 1) with (rho_f n c (rho_f n c y)) in *.
    destruct (rho_round n c Hpos x y fuel)
      as [[Hg E] | [[Hg E] | (Hg & _ & E)]]; rewrite E.
    + rewrite Hg, Z.eqb_refl. reflexivity.
    + destruct (Z.eqb_spec
                  (Z.gcd (Z.abs (rho_f n c x - rho_f n c (rho_f n c y))) n) n);
        [lia | reflexivity].
    + contradiction.
  - pose proof (Hbefore 1%nat ltac:(lia)) as H1.
    change (tortoise n c x 1) with (rho_f n c x) in H1.
    change (hare n c y 1) with (rho_f n c (rho_f n c y)) in H1.
    destruct (rho_round n c Hpos x y fuel)
      as [[Hg E] | [[Hg E] | (Hg & _ & E)]]; [lia | lia |].
    rewrite E. rewrite (tortoise_shift n c x (S k)), (hare_shift n c y (S k)).
    rewrite (tortoise_shift n c x (S k)), (hare_shift n c y (S k)) in Hat.
    apply IH; [lia | | exact Hat].
    intros j Hj. rewrite <- tortoise_shift, <- hare_shift.
    apply Hbefore. lia.
Qed.

Lemma rho_f_fixed : 5 <= n -> rho_f n (n - 2) 2 = 2.
Proof.
  intros Hn. unfold rho_f, pow_mod. change (2 ^ 2) with 4.
  rewrite (Z.mod_small 4 n) by lia.
  replace (4 + (n - 2)) with (2 + 1 * n) by lia.
  rewrite Z.mod_add by lia. apply Z.mod_small. lia.
Qed.

(** With [x = 2] and [c = n - 2] the walk never leaves 2, and the first
    round ends the attempt with [g = n]. *)
Lemma unlucky_attempt (fuel : nat) (t : nat -> Z) (p : nat) :
  5 <= n -> (1 <= fuel)%nat -> t p = 0 -> t (S p) = n - 3 ->
  rho_attempt fuel n (mkRng t p) = Returned LoopBreak (mkRng t (S (S p))).
Proof.
  intros Hn Hfuel Ht0 Ht1.
  rewrite (rho_attempt_eq n ltac:(lia)). unfold next. cbn [tape pos].
  rewrite (randint_onto 2 (n - 1) 2 t p ltac:(lia) ltac:(lia)).
  rewrite (randint_onto 1 (n - 1) (n - 2) t (S p) ltac:(lia) ltac:(lia)).
  f_equal. destruct fuel as [| fuel]; [lia |].
  destruct (rho_round n (n - 2) ltac:(lia) 2 2 fuel)
    as [[_ E] | [[Hg _] | (Hg & _ & _)]]; [exact E | exfalso | exfalso];
    rewrite !rho_f_fixed, Z.sub_diag in Hg by exact Hn;
    change (Z.abs 0) with 0 in Hg;
    rewrite Z.gcd_0_l, Z.abs_eq in Hg by lia; lia.
Qed.

Lemma unlucky_for (fuel k : nat) :
  5 <= n -> (1 <= fuel)%nat ->
  forall p, Nat.even p = true ->
    value (rho_for k fuel n (mkRng (tape (unlucky_rng n)) p)) = Some n.
Proof.
  intros Hn Hfuel. induction k as [| k IH]; intros p Hp; [reflexivity |].
  cbn [rho_for]. unfold bind.
  rewrite unlucky_attempt; try assumption.
  - apply IH. rewrite Nat.even_succ_succ. exact Hp.
  - cbn [unlucky_rng tape]. rewrite Hp. reflexivity.
  - cbn [unlucky_rng tape]. rewrite Nat.even_succ. unfold Nat.odd.
    rewrite Hp. reflexivity.
Qed.

End RhoMore.

(** X9. On the product of two primes [p] and [q], [pollards_rho] returns
    [p], [q] or the product itself, nothing else, and with fuel [p * q] it
    does return. *)
Theorem rho_semiprime_result (p q : Z) (r : rng) :
  Z.prime p -> Z.prime q ->
  (forall fuel d r',
     pollards_rho fuel (p * q) r = Returned d r' ->
     d = p \/ d = q \/ d = p * q) /\
  (exists d r',
     (d = p \/ d = q \/ d = p * q) /\
     forall fuel, (Z.to_nat (p * q) <= fuel)%nat ->
                  pollards_rho fuel (p * q) r = Returned d r').
Proof.
  intros Hp Hq.
  pose proof (Z.prime_ge_2 p Hp) as Hp2. pose proof (Z.prime_ge_2 q Hq) as Hq2.
  assert (Hn : 2 <= p * q) by nia.
  assert (Hany : forall fuel d r',
             pollards_rho fuel (p * q) r = Returned d r' ->
             d = p \/ d = q \/ d = p * q).
  { intros fuel d r' H.
    destruct (pollards_rho_returned fuel (p * q) r d r' Hn H)
      as [-> | [Hd Hdiv]]; [right; right; reflexivity |].
    destruct (semiprime_divisor p q d Hp Hq Hd Hdiv); [left | right; left];
      assumption. }
  split; [exact Hany |].
  destruct (pollards_rho_total (p * q) r Hn) as (d & r' & Hret).
  exists d, r'. split; [| exact Hret].
  apply (Hany (Z.to_nat (p * q)) d r'). apply Hret. apply le_n.
Qed.

Lemma rho_semiprime_result_witness :
  exists d r',
    (d = 13 \/ d = 13 \/ d = 13 * 13) /\
    forall fuel, (Z.to_nat (13 * 13) <= fuel)%nat ->
                 pollards_rho fuel (13 * 13) (count_rng 0 1) = Returned d r'.
Proof.
  apply (proj2 (rho_semiprime_result 13 13 (count_rng 0 1) prime_13 prime_13)).
Defined.

(** X10. Below the contract, for [n < 3] that is neither even nor a multiple
    of 3 (1, -1, -5, -7, ...), [pollards_rho] raises [ValueError]: the range
    of the first [randint(2, n - 1)] is empty. *)
Theorem rho_value_error (n : Z) (fuel : nat) (r : rng) :
  n < 3 -> n mod 2 <> 0 -> n mod 3 <> 0 ->
  pollards_rho fuel n r = Raised ValueError.
Proof.
  intros Hn H2 H3. rewrite pollards_rho_slow by assumption.
  unfold max_retries. cbn [rho_for]. unfold bind, rho_attempt, bind, randint.
  destruct (Z.ltb_spec (n - 1) 2); [reflexivity | lia].
Qed.

Lemma rho_value_error_witness :
  pollards_rho 5 1 (const_rng 0) = Raised ValueError /\
  pollards_rho 5 (-35) (const_rng 0) = Raised ValueError.
Proof.
  split.
  - apply (rho_value_error 1); [lia | discriminate | discriminate].
  - apply (rho_value_error (-35)); [lia | discriminate | discriminate].
Defined.

(** X11. The value [n] proves nothing about [n]: for every [n >= 5] that is
    neither even nor a multiple of 3, prime or composite, the generator that
    hands out [x = 2] and [c = n - 2] makes every attempt end in its first
    round with [g = n], and [pollards_rho] returns [n]. *)
Theorem rho_unlucky_generator (n : Z) (fuel : nat) :
  5 <= n -> n mod 2 <> 0 -> n mod 3 <> 0 -> (1 <= fuel)%nat ->
  value (pollards_rho fuel n (unlucky_rng n)) = Some n.
Proof.
  intros Hn H2 H3 Hfuel. rewrite pollards_rho_slow by assumption.
  apply (unlucky_for n fuel max_retries Hn Hfuel 0%nat). reflexivity.
Qed.

Lemma rho_unlucky_generator_witness :
  value (pollards_rho 1 8051 (unlucky_rng 8051)) = Some 8051.
Proof.
  apply (rho_unlucky_generator 8051 1);
    [lia | discriminate | discriminate | lia].
Defined.

(** X12. For [n >= 2], [trial_division_python n] is never above a value
    returned by [pollards_rho n]. *)
Theorem trial_not_above_rho (n : Z) (fuel : nat) (r : rng) (d : Z) (r' : rng) :
  2 <= n -> pollards_rho fuel n r = Returned d r' ->
  trial_division_python n <= d.
Proof.
  intros Hn H.
  destruct (pollards_rho_returned fuel n r d r' Hn H) as [-> | [Hd Hdiv]].
  - apply trial_division_range. exact Hn.
  - apply trial_division_least; [exact Hn | lia |].
    apply Z.mod_divide; [lia | exact Hdiv].
Qed.

Lemma trial_not_above_rho_witness : trial_division_python 8051 <= 97.
Proof.
  apply (trial_not_above_rho 8051 (Z.to_nat 8051) (count_rng 3 1) 97
           (next (next (count_rng 3 1)))); [lia |].
  vm_compute. reflexivity.
Defined.

(** X13. For [n > 1], an attempt that starts at [x0] with constant [c] is
    decided by the first round [k] at which [gcd(|x_k - x_2k|, n)] is not 1:
    the loop breaks if that gcd is [n], and returns it otherwise. *)
Theorem rho_while_first_collision (n c x0 : Z) (fuel k : nat) :
  1 < n -> (1 <= k <= fuel)%nat ->
  (forall j, (1 <= j < k)%nat ->
             Z.gcd (Z.abs (tortoise n c x0 j - tortoise n c x0 (2 * j))) n = 1) ->
  Z.gcd (Z.abs (tortoise n c x0 k - tortoise n c x0 (2 * k))) n <> 1 ->
  rho_while fuel n c x0 x0 1 =
  if Z.gcd (Z.abs (tortoise n c x0 k - tortoise n c x0 (2 * k))) n =? n
  then LoopBreak
  else LoopReturn (Z.gcd (Z.abs (tortoise n c x0 k - tortoise n c x0 (2 * k))) n).
Proof.
  intros Hn Hk Hbefore Hat.
  rewrite <- (hare_tortoise n c x0 k) in *.
  apply rho_while_first; [exact Hn | exact Hk | | exact Hat].
  intros j Hj. rewrite hare_tortoise. apply Hbefore. exact Hj.
Qed.

Lemma rho_while_first_collision_witness :
  rho_while 3 8051 1 2 2 1 = LoopReturn 97.
Proof.
  rewrite (rho_while_first_collision 8051 1 2 3 3).
  - vm_compute. reflexivity.
  - lia.
  - lia.
  - intros j Hj. assert (Hc : j = 1%nat \/ j = 2%nat) by lia.
    destruct Hc as [-> | ->]; vm_compute; reflexivity.
  - vm_compute. discriminate.
Defined.

(** ** Five failed attempts in a row *)

Section FiveFailures.

Variable n : Z.

(** On the generator that always hands out [x = 2] and [c = n - 2], every
    attempt that is run fails. *)
Lemma unlucky_run_failed (fuel : nat) (es : list loop_exit) :
  5 <= n -> (1 <= fuel)%nat ->
  forall p r',
    Nat.even p = true ->
    attempts_run fuel n (mkRng (tape (unlucky_rng n)) p) es r' ->
    Forall failed es.
Proof.
  intros Hn Hfuel. induction es as [| e es IH]; intros p r' Hp Hrun;
    [constructor |].
  inversion Hrun as [| ? ? r1 ? ? Ha Hrest]; subst.
  rewrite unlucky_attempt in Ha; try assumption.
  - assert (He : LoopBreak = e) by congruence.
    assert (Hr : mkRng (tape (unlucky_rng n)) (S (S p)) = r1) by congruence.
    subst e r1. constructor; [right; reflexivity |].
    apply (IH (S (S p)) r'); [| exact Hrest].
    rewrite Nat.even_succ_succ. exact Hp.
  - cbn [unlucky_rng tape]. rewrite Hp. reflexivity.
  - cbn [unlucky_rng tape]. rewrite Nat.even_succ. unfold Nat.odd.
    rewrite Hp. reflexivity.
Qed.

End FiveFailures.

Lemma rho_retry_budget_witness :
  exists d r' es,
    pollards_rho 35 35 (unlucky_rng 35) = Returned d r' /\
    attempts_run 35 35 (unlucky_rng 35) es r' /\
    Forall failed es /\ length es = 5%nat /\ d = 35 /\ pos r' = 10%nat.
Proof.
  destruct (rho_retry_budget 35 (unlucky_rng 35) 35 ltac:(lia)
              ltac:(vm_compute; repeat constructor))
    as (d & r' & es & Hret & Hrun & Hlen & Hpos & Hall).
  assert (Hf : Forall failed es).
  { apply (unlucky_run_failed 35 35 es ltac:(lia) ltac:(lia) 0%nat r');
      [reflexivity | exact Hrun]. }
  destruct (Hall ltac:(discriminate) ltac:(discriminate) Hf) as [H5 Hd].
  exists d, r', es.
  split; [exact Hret |]. split; [exact Hrun |]. split; [exact Hf |].
  split; [exact H5 |]. split; [exact Hd |].
  rewrite Hpos, H5. reflexivity.
Defined.
